(** * Pol::Clib::message_queue — a blocking FIFO queue with cooperative cancel

  Shallow embedding of [pol-core/clib/message_queue.h].

  The class keeps a [std::list<Message> _queue] and a flag [_cancel], both
  guarded by [_mutex]; consumers park on the condition variable
  [_notifier].  The embedding has two layers.

  - The _critical sections_: what each member function does to the pair
    ([_queue], [_cancel]) while it holds the mutex.  Out-parameters
    ([Message*], [std::list<Message>*], [std::list<Message>&]) are passed
    in with their current contents and handed back with their new ones.
    For the two [pop_wait] overloads the function describes one pass from
    holding the mutex up to the next suspension in [_notifier.wait], the
    [throw Canceled()], or the normal return.

  - The _thread system_: the queue together with the consumers that are
    inside a [pop_wait] call.  Every event is one critical section; since
    [_mutex] serialises them they are taken as atomic steps.  A consumer
    parked in [_notifier.wait] is unblocked by [notify_one], by
    [notify_all] or spuriously, and then runs another pass once it gets
    the mutex back. *)

From stdpp Require Import base option list.

Module MessageQueue.

(** ** The operations of [std::list] the class relies on *)

Section std_list.
Context {A : Type}.

(** [dst.splice(dst.end(), src)]: every node of [src] moves behind the
    last node of [dst]; [src] is left empty.  The result is the pair of
    both lists after the call. *)
Definition splice_end (dst src : list A) : list A * list A :=
  (dst ++ src, []).

(** [l.push_back(x)] / [l.emplace_back(std::move(x))] *)
Definition push_back (x : A) (l : list A) : list A := l ++ [x].

(** [l.empty()] *)
Definition is_empty (l : list A) : bool :=
  match l with
  | [] => true
  | _ :: _ => false
  end.
End std_list.

(** ** Queue state and critical sections *)

Section queue.
Context {Message : Type}.

(** The data members other than the mutex and the condition variable. *)
Record message_queue : Type := MQ {
  _queue : list Message;
  _cancel : bool
}.

(** [message_queue()] : [_queue()], [_cancel( false )] *)
Definition ctor : message_queue := MQ [] false.

(** [void push( Message const& msg )]: a one-element list is built outside
    the lock and spliced in behind the tail. *)
Definition push (msg : Message) (q : message_queue) : message_queue :=
  let tmp := push_back msg [] in
  MQ (fst (splice_end (_queue q) tmp)) (_cancel q).

(** [void push_move( Message&& msg )] *)
Definition push_move (msg : Message) (q : message_queue) : message_queue :=
  let tmp := push_back msg [] in
  MQ (fst (splice_end (_queue q) tmp)) (_cancel q).

(** [void push( std::list<Message>& msg_list )]: returns the queue and the
    caller's list as the call leaves them. *)
Definition push_list (msg_list : list Message) (q : message_queue)
  : message_queue * list Message :=
  let '(spliced, rest) := splice_end (_queue q) msg_list in
  (MQ spliced (_cancel q), rest).

(** [bool empty() const] *)
Definition empty (q : message_queue) : bool := is_empty (_queue q).

(** [std::size_t size() const] *)
Definition size (q : message_queue) : nat := length (_queue q).

(** [bool try_pop( Message* msg )]: the boolean result, the contents of
    [*msg] after the call, and the queue after the call. *)
Definition try_pop (msg : Message) (q : message_queue)
  : bool * Message * message_queue :=
  match _queue q with
  | [] => (false, msg, q)
  | front :: rest => (true, front, MQ rest (_cancel q))
  end.

(** How a pass of a blocking pop leaves the critical section.  [R] is the
    type of the out-parameter. *)
Inductive blocking (R : Type) : Type :=
| Waits (out : R) (q : message_queue)
    (* the loop condition holds: [_notifier.wait( lock )] *)
| Throws (out : R) (q : message_queue)
    (* [throw Canceled()] *)
| Returns (out : R) (q : message_queue)
    (* the function returns *)
| Undefined
    (* [front()] of an empty list *).
#[global] Arguments Waits {R} out q.
#[global] Arguments Throws {R} out q.
#[global] Arguments Returns {R} out q.
#[global] Arguments Undefined {R}.

(** [while( _queue.empty() && !_cancel )] *)
Definition wait_condition (q : message_queue) : bool :=
  is_empty (_queue q) && negb (_cancel q).

(** [void pop_wait( Message* msg )] *)
Definition pop_wait (msg : Message) (q : message_queue) : blocking Message :=
  if wait_condition q then Waits msg q
  else if _cancel q then Throws msg q
  else match _queue q with
       | front :: rest => Returns front (MQ rest (_cancel q))
       | [] => Undefined
       end.

(** [void pop_wait( std::list<Message>* msgs )] *)
Definition pop_wait_list (msgs : list Message) (q : message_queue)
  : blocking (list Message) :=
  if wait_condition q then Waits msgs q
  else if _cancel q then Throws msgs q
  else let '(spliced, rest) := splice_end msgs (_queue q) in
       Returns spliced (MQ rest (_cancel q)).

(** [void pop_remaining( std::list<Message>* msgs )] (takes no lock) *)
Definition pop_remaining (msgs : list Message) (q : message_queue)
  : list Message * message_queue :=
  let '(spliced, rest) := splice_end msgs (_queue q) in
  (spliced, MQ rest (_cancel q)).

(** [void cancel()] *)
Definition cancel (q : message_queue) : message_queue :=
  MQ (_queue q) true.

(** [~message_queue()] calls [cancel()]. *)
Definition dtor (q : message_queue) : message_queue := cancel q.

(** *** Every member function as one operation on the queue state *)

Inductive operation : Type :=
| op_push (msg : Message)
| op_push_list (msg_list : list Message)
| op_push_move (msg : Message)
| op_empty
| op_size
| op_try_pop (msg : Message)
| op_pop_wait (msg : Message)
| op_pop_wait_list (msgs : list Message)
| op_pop_remaining (msgs : list Message)
| op_cancel
| op_dtor.

(** The queue a pass of a blocking pop leaves behind; there is none after
    undefined behaviour. *)
Definition blocking_state {R : Type} (b : blocking R) : option message_queue :=
  match b with
  | Waits _ q | Throws _ q | Returns _ q => Some q
  | Undefined => None
  end.

Definition state_after (o : operation) (q : message_queue)
  : option message_queue :=
  match o with
  | op_push msg => Some (push msg q)
  | op_push_list msg_list => Some (fst (push_list msg_list q))
  | op_push_move msg => Some (push_move msg q)
  | op_empty => Some q (* const member function *)
  | op_size => Some q (* const member function *)
  | op_try_pop msg => Some (snd (try_pop msg q))
  | op_pop_wait msg => blocking_state (pop_wait msg q)
  | op_pop_wait_list msgs => blocking_state (pop_wait_list msgs q)
  | op_pop_remaining msgs => Some (snd (pop_remaining msgs q))
  | op_cancel => Some (cancel q)
  | op_dtor => Some (dtor q)
  end.

(** *** Sequences of pushes and pops issued by one caller *)

(** [push(p1); ...; push(pn)] *)
Definition push_all (ps : list Message) (q : message_queue) : message_queue :=
  foldl (fun acc p => push p acc) q ps.

(** Which of the two single-element pops a consumer uses. *)
Inductive pop_via : Type := via_try_pop | via_pop_wait.

(** One single-element pop through either function: the element obtained,
    if the call delivered one, and the queue afterwards.  [dflt] is what
    the caller's [Message] object holds before the call. *)
Definition pop_one (dflt : Message) (v : pop_via) (q : message_queue)
  : option Message * message_queue :=
  match v with
  | via_try_pop =>
      let '(ok, msg, q') := try_pop dflt q in
      (if ok then Some msg else None, q')
  | via_pop_wait =>
      match pop_wait dflt q with
      | Returns msg q' => (Some msg, q')
      | Waits _ q' | Throws _ q' => (None, q')
      | Undefined => (None, q)
      end
  end.

(** A run of pops, one after the other; collects what each delivered. *)
Fixpoint pop_seq (dflt : Message) (vs : list pop_via) (q : message_queue)
  : list (option Message) * message_queue :=
  match vs with
  | [] => ([], q)
  | v :: vs' =>
      let '(r, q') := pop_one dflt v q in
      let '(rs, q'') := pop_seq dflt vs' q' in
      (r :: rs, q'')
  end.
End queue.

#[global] Arguments message_queue Message : clear implicits.
#[global] Arguments blocking Message R : clear implicits.
#[global] Arguments operation Message : clear implicits.

(** ** Consumers, the condition variable, and interleavings *)

Section threads.
Context {Message : Type}.

(** A call of one of the two blocking pops that is under way, with the
    current contents of its out-parameter. *)
Inductive call : Type :=
| call_pop_wait (msg : Message)
| call_pop_wait_list (msgs : list Message).

(** Where a consumer stands in its call. *)
Inductive thread : Type :=
| Parked (c : call)
    (* suspended inside [_notifier.wait( lock )], mutex released *)
| Notified (c : call)
    (* unblocked; re-locks the mutex and tests the loop condition again *)
| Finished (c : call)
    (* the call returned; [c] holds the filled out-parameter *)
| Canceled (c : call)
    (* the call threw [Canceled] *)
| Crashed
    (* undefined behaviour *).

(** One pass of a consumer through its call while it holds the mutex. *)
Definition pass (c : call) (q : message_queue Message)
  : thread * message_queue Message :=
  match c with
  | call_pop_wait msg =>
      match pop_wait msg q with
      | Waits m q' => (Parked (call_pop_wait m), q')
      | Throws m q' => (Canceled (call_pop_wait m), q')
      | Returns m q' => (Finished (call_pop_wait m), q')
      | Undefined => (Crashed, q)
      end
  | call_pop_wait_list msgs =>
      match pop_wait_list msgs q with
      | Waits l q' => (Parked (call_pop_wait_list l), q')
      | Throws l q' => (Canceled (call_pop_wait_list l), q')
      | Returns l q' => (Finished (call_pop_wait_list l), q')
      | Undefined => (Crashed, q)
      end
  end.

(** The queue object and the consumers that have entered a blocking pop;
    a consumer is named by its position in [threads]. *)
Record system : Type := Sys {
  shared : message_queue Message;
  threads : list thread
}.

Definition is_parked (t : thread) : bool :=
  match t with
  | Parked _ => true
  | _ => false
  end.

Definition wake (t : thread) : thread :=
  match t with
  | Parked c => Notified c
  | _ => t
  end.

(** [_notifier.notify_all()]: every thread waiting on the condition
    variable is unblocked. *)
Definition notify_all (ts : list thread) : list thread := wake <$> ts.

(** [_notifier.notify_one()]: if any thread is waiting, one of them is
    unblocked; [w] names the one the scheduler picks.  Without a waiter
    the call does nothing.  [None] is returned for a pick that the state
    does not allow. *)
Definition notify_one (w : option nat) (ts : list thread)
  : option (list thread) :=
  match w with
  | Some i =>
      match ts !! i with
      | Some (Parked c) => Some (<[i := Notified c]> ts)
      | _ => None
      end
  | None => if existsb is_parked ts then None else Some ts
  end.

(** The critical sections as they interleave.  [pop_remaining] is absent:
    it takes no lock and is only to be called once nothing else runs. *)
Inductive event : Type :=
| ev_push (msg : Message) (w : option nat)
| ev_push_move (msg : Message) (w : option nat)
| ev_push_list (msg_list : list Message) (w : option nat)
| ev_empty
| ev_size
| ev_try_pop (msg : Message)
| ev_cancel
| ev_call (c : call)
    (* a further consumer enters a blocking pop *)
| ev_resume (i : nat)
    (* consumer [i], unblocked, gets the mutex back and goes on *)
| ev_spurious (i : nat)
    (* consumer [i] wakes without a notification *).

Definition step (e : event) (s : system) : option system :=
  match e with
  | ev_push msg w =>
      Sys (push msg (shared s)) <$> notify_one w (threads s)
  | ev_push_move msg w =>
      Sys (push_move msg (shared s)) <$> notify_one w (threads s)
  | ev_push_list msg_list w =>
      Sys (fst (push_list msg_list (shared s))) <$> notify_one w (threads s)
  | ev_empty | ev_size => Some s
  | ev_try_pop msg => Some (Sys (snd (try_pop msg (shared s))) (threads s))
  | ev_cancel => Some (Sys (cancel (shared s)) (notify_all (threads s)))
  | ev_call c =>
      let '(t, q') := pass c (shared s) in
      Some (Sys q' (threads s ++ [t]))
  | ev_resume i =>
      match threads s !! i with
      | Some (Notified c) =>
          let '(t, q') := pass c (shared s) in
          Some (Sys q' (<[i := t]> (threads s)))
      | _ => None
      end
  | ev_spurious i =>
      match threads s !! i with
      | Some (Parked c) => Some (Sys (shared s) (<[i := Notified c]> (threads s)))
      | _ => None
      end
  end.

(** A schedule, event after event; [None] when an event is not enabled. *)
Fixpoint run (tr : list event) (s : system) : option system :=
  match tr with
  | [] => Some s
  | e :: tr' =>
      match step e s with
      | Some s' => run tr' s'
      | None => None
      end
  end.

(** The consumers that are blocked on the condition variable. *)
Definition parked_at (ts : list thread) (i : nat) : bool :=
  match ts !! i with
  | Some (Parked _) => true
  | _ => false
  end.

Definition waiters (ts : list thread) : list nat :=
  List.filter (parked_at ts) (seq 0 (length ts)).

(** The consumers that were unblocked and have not run since. *)
Definition notified_at (ts : list thread) (i : nat) : bool :=
  match ts !! i with
  | Some (Notified _) => true
  | _ => false
  end.

(** The queue is cancelled and nobody is blocked on the condition
    variable. *)
Definition released (s : system) : Prop :=
  _cancel (shared s) = true /\ waiters (threads s) = [].
End threads.

#[global] Arguments call Message : clear implicits.
#[global] Arguments thread Message : clear implicits.
#[global] Arguments system Message : clear implicits.
#[global] Arguments event Message : clear implicits.

(** ** What goes into the buffer and what comes out of it *)

Section accounting.
Context {Message : Type}.

(** The elements a pass of call [c] has moved out of the buffer when it
    ends in [t]: the element assigned to [*msg], or the elements spliced
    behind what [*msgs] held before.  A pass that waits or throws has
    moved nothing. *)
Definition taken (c : call Message) (t : thread Message) : list Message :=
  match c, t with
  | call_pop_wait _, Finished (call_pop_wait m) => [m]
  | call_pop_wait_list msgs, Finished (call_pop_wait_list l) =>
      drop (length msgs) l
  | _, _ => []
  end.

(** The elements an event hands to its caller. *)
Definition handed_out (e : event Message) (s : system Message)
  : list Message :=
  match e with
  | ev_try_pop msg =>
      let '(ok, m, _) := try_pop msg (shared s) in
      if ok then [m] else []
  | ev_call c => taken c (fst (pass c (shared s)))
  | ev_resume i =>
      match threads s !! i with
      | Some (Notified c) => taken c (fst (pass c (shared s)))
      | _ => []
      end
  | _ => []
  end.

(** The elements an event inserts. *)
Definition put_in (e : event Message) : list Message :=
  match e with
  | ev_push msg _ | ev_push_move msg _ => [msg]
  | ev_push_list msg_list _ => msg_list
  | _ => []
  end.

(** Everything handed out along a schedule, in the order of the events. *)
Fixpoint all_handed_out (tr : list (event Message)) (s : system Message)
  : list Message :=
  match tr with
  | [] => []
  | e :: tr' =>
      handed_out e s ++
      match step e s with
      | Some s' => all_handed_out tr' s'
      | None => []
      end
  end.

(** Everything inserted along a schedule, in the order of the events. *)
Definition all_put_in (tr : list (event Message)) : list Message :=
  concat (put_in <$> tr).
End accounting.

(** ** Properties of the critical sections *)

Section queue_facts.
Context {Message : Type}.
Implicit Types (q : message_queue Message) (msg : Message).
Implicit Types (msgs ps : list Message) (vs : list pop_via).

Lemma queue_eta q : MQ (_queue q) (_cancel q) = q.
Proof. by destruct q. Qed.

Lemma push_unfold msg q : push msg q = MQ (_queue q ++ [msg]) (_cancel q).
Proof. reflexivity. Qed.

Lemma push_all_unfold ps q :
  push_all ps q = MQ (_queue q ++ ps) (_cancel q).
Proof.
  revert q. induction ps as [|p ps IH]; intros q; simpl.
  - rewrite app_nil_r. symmetry. apply queue_eta.
  - rewrite IH. simpl. by rewrite <- app_assoc.
Qed.

(** The guards of [pop_wait] exclude [front()] on an empty list. *)
Lemma pop_wait_defined msg q : pop_wait msg q <> Undefined.
Proof.
  unfold pop_wait, wait_condition.
  destruct q as [[|m l] [|]]; simpl; discriminate.
Qed.

Lemma pop_wait_list_defined msgs q : pop_wait_list msgs q <> Undefined.
Proof.
  unfold pop_wait_list, wait_condition.
  destruct q as [[|m l] [|]]; simpl; discriminate.
Qed.

(** Popping a buffer of known contents element by element. *)
Lemma pop_seq_drains dflt (l : list Message) vs (c : bool) :
  length vs = length l ->
  c = false \/ Forall (fun v => v = via_try_pop) vs ->
  pop_seq dflt vs (MQ l c) = (Some <$> l, MQ [] c).
Proof.
  revert vs. induction l as [|m l IH]; intros [|v vs] Hlen Hok;
    simpl in Hlen; try discriminate; [reflexivity|].
  assert (Htl : c = false \/ Forall (fun v => v = via_try_pop) vs).
  { destruct Hok as [?|Hall]; [by left|right]. by inversion Hall. }
  assert (Hone : pop_one dflt v (MQ (m :: l) c) = (Some m, MQ l c)).
  { destruct v; [reflexivity|].
    destruct Hok as [->|Hall]; [reflexivity|].
    inversion Hall; discriminate. }
  cbn [pop_seq]. rewrite Hone, (IH vs); [reflexivity|lia|exact Htl].
Qed.
End queue_facts.

(** ** Properties of the thread system *)

Section thread_facts.
Context {Message : Type}.
Implicit Types (q : message_queue Message) (c : call Message).
Implicit Types (t : thread Message) (ts : list (thread Message)).
Implicit Types (s : system Message) (e : event Message).
Implicit Types (tr : list (event Message)) (i j : nat).

Lemma elem_of_waiters ts i :
  i ∈ waiters ts <-> exists c, ts !! i = Some (Parked c).
Proof.
  unfold waiters. rewrite list_elem_of_In, filter_In, <- list_elem_of_In.
  rewrite elem_of_seq. unfold parked_at. split.
  - intros [_ H]. destruct (ts !! i) as [[]|]; try discriminate. eauto.
  - intros [c Hc]. rewrite Hc. split; [|reflexivity].
    apply lookup_lt_Some in Hc. lia.
Qed.

Lemma waiters_nil ts :
  waiters ts = [] <-> forall j c, ts !! j <> Some (Parked c).
Proof.
  split.
  - intros Hnil j c Hj.
    assert (Hin : j ∈ waiters ts) by (apply elem_of_waiters; eauto).
    rewrite Hnil in Hin. by apply not_elem_of_nil in Hin.
  - intros Hno. destruct (waiters ts) as [|j l] eqn:Hw; [reflexivity|].
    assert (Hin : j ∈ waiters ts) by (rewrite Hw; left).
    apply elem_of_waiters in Hin as [c Hc]. by apply Hno in Hc.
Qed.

Lemma NoDup_waiters ts : NoDup (waiters ts).
Proof.
  unfold waiters.
  apply NoDup_ListNoDup, List.NoDup_filter, NoDup_ListNoDup, NoDup_seq.
Qed.

Lemma wake_not_parked t c : wake t <> Parked c.
Proof. by destruct t. Qed.

Lemma wake_wake t : wake (wake t) = wake t.
Proof. by destruct t. Qed.

Lemma notify_all_lookup ts i :
  notify_all ts !! i = wake <$> ts !! i.
Proof. apply list_lookup_fmap. Qed.

Lemma notify_all_waiters ts : waiters (notify_all ts) = [].
Proof.
  apply waiters_nil. intros j c. rewrite notify_all_lookup.
  destruct (ts !! j) as [t|]; simpl; [|discriminate].
  intros [= H]. by apply wake_not_parked in H.
Qed.

Lemma notify_all_idemp ts : notify_all (notify_all ts) = notify_all ts.
Proof.
  unfold notify_all. rewrite <- list_fmap_compose.
  apply list_fmap_ext. intros _ t _. apply wake_wake.
Qed.

Lemma existsb_is_parked ts :
  existsb is_parked ts = true <-> waiters ts <> [].
Proof.
  rewrite existsb_exists. split.
  - intros (t & Hin & Hp) Hnil. destruct t; try discriminate.
    apply list_elem_of_In, list_elem_of_lookup in Hin as [j Hj].
    rewrite waiters_nil in Hnil. by apply Hnil in Hj.
  - intros Hne. destruct (waiters ts) as [|j l] eqn:Hw; [done|].
    assert (Hin : j ∈ waiters ts) by (rewrite Hw; left).
    apply elem_of_waiters in Hin as [c Hc].
    exists (Parked c). split; [|reflexivity].
    apply list_elem_of_In, list_elem_of_lookup. eauto.
Qed.

(** [notify_one] can always be carried out: the event is enabled for the
    pick of some waiter, or for no pick when nobody waits. *)
Lemma notify_one_enabled ts : exists w ts', notify_one w ts = Some ts'.
Proof.
  destruct (waiters ts) as [|j l] eqn:Hw.
  - exists None, ts. simpl.
    destruct (existsb is_parked ts) eqn:He; [|reflexivity].
    apply existsb_is_parked in He. contradiction.
  - assert (Hin : j ∈ waiters ts) by (rewrite Hw; left).
    apply elem_of_waiters in Hin as [c Hc].
    exists (Some j), (<[j := Notified c]> ts). simpl. by rewrite Hc.
Qed.

(** Without a waiter, [notify_one] changes nothing. *)
Lemma notify_one_no_waiter w ts ts' :
  waiters ts = [] -> notify_one w ts = Some ts' -> ts' = ts.
Proof.
  intros Hnil. destruct w as [j|]; simpl.
  - destruct (ts !! j) as [[c| | | |]|] eqn:Hj; try discriminate.
    rewrite waiters_nil in Hnil. by apply Hnil in Hj.
  - destruct (existsb is_parked ts); [discriminate|]. by intros [= <-].
Qed.

(** On a cancelled queue a pass of either blocking pop throws, and touches
    neither the queue nor the out-parameter. *)
Lemma pass_cancelled c q : _cancel q = true -> pass c q = (Canceled c, q).
Proof.
  intros Hc. destruct c as [msg|msgs]; simpl;
    unfold pop_wait, pop_wait_list, wait_condition;
    rewrite Hc, andb_false_r; reflexivity.
Qed.

Lemma pass_cancel_flag c q t q' :
  pass c q = (t, q') -> _cancel q' = _cancel q.
Proof.
  destruct c as [msg|msgs]; simpl;
    unfold pop_wait, pop_wait_list, wait_condition;
    destruct q as [[|m l] [|]]; simpl; intros [= <- <-]; reflexivity.
Qed.

(** No critical section clears the flag. *)
Lemma step_cancel_flag e s s' :
  step e s = Some s' -> _cancel (shared s) = true -> _cancel (shared s') = true.
Proof.
  intros Hstep Hc. destruct e; simpl in Hstep.
  1-3: destruct (notify_one w (threads s)); simplify_eq/=; done.
  1-2: by simplify_eq.
  - simplify_eq/=. unfold try_pop. by destruct (_queue (shared s)).
  - by simplify_eq/=.
  - destruct (pass c (shared s)) as [t q'] eqn:Hp. simplify_eq/=.
    apply pass_cancel_flag in Hp. congruence.
  - destruct (threads s !! i) as [[c|c|c|c|]|]; try discriminate.
    destruct (pass c (shared s)) as [t q'] eqn:Hp. simplify_eq/=.
    apply pass_cancel_flag in Hp. congruence.
  - destruct (threads s !! i) as [[c|c|c|c|]|]; by simplify_eq/=.
Qed.

(** [notify_one] leaves alone whoever is not parked. *)
Lemma notify_one_lookup w ts ts' i t :
  notify_one w ts = Some ts' ->
  ts !! i = Some t -> is_parked t = false -> ts' !! i = Some t.
Proof.
  intros Hn Hi Hp. destruct w as [j|]; simpl in Hn.
  - destruct (ts !! j) as [[c| | | |]|] eqn:Hj; try discriminate.
    simplify_eq. rewrite list_lookup_insert_ne; [done|].
    intros ->. rewrite Hi in Hj. by simplify_eq.
  - destruct (existsb is_parked ts); by simplify_eq.
Qed.

(** Once a queue is cancelled with nobody parked, it stays that way. *)
Lemma step_released e s s' : released s -> step e s = Some s' -> released s'.
Proof.
  intros [Hc Hw] Hstep. split; [by eapply step_cancel_flag|].
  destruct e; simpl in Hstep.
  1-3: destruct (notify_one w (threads s)) as [ts'|] eqn:Hn; simplify_eq/=;
       by rewrite (notify_one_no_waiter _ _ _ Hw Hn).
  1-3: by simplify_eq/=.
  - simplify_eq/=. apply notify_all_waiters.
  - rewrite (pass_cancelled c _ Hc) in Hstep. simplify_eq/=.
    apply waiters_nil. intros j c' Hj.
    apply lookup_app_Some in Hj as [Hj|[_ Hj]].
    + rewrite waiters_nil in Hw. by apply Hw in Hj.
    + apply list_lookup_singleton_Some in Hj as [_ ?]. discriminate.
  - destruct (threads s !! i) as [[c|c|c|c|]|] eqn:Hi; try discriminate.
    rewrite (pass_cancelled c _ Hc) in Hstep. simplify_eq/=.
    apply waiters_nil. intros j c' Hj.
    apply list_lookup_insert_Some in Hj as [(_ & ? & _)|[_ Hj]];
      [discriminate|].
    rewrite waiters_nil in Hw. by apply Hw in Hj.
  - destruct (threads s !! i) as [[c|c|c|c|]|] eqn:Hi; try discriminate.
    rewrite waiters_nil in Hw. by apply Hw in Hi.
Qed.

Lemma run_released tr s s' : released s -> run tr s = Some s' -> released s'.
Proof.
  revert s. induction tr as [|e tr IH]; intros s Hr Hrun; simpl in Hrun.
  - by simplify_eq.
  - destruct (step e s) as [s1|] eqn:Hs; [|discriminate].
    eapply IH; [|exact Hrun]. by eapply step_released.
Qed.

(** A consumer that has thrown is never touched again. *)
Lemma step_keeps_canceled e s s' i c :
  threads s !! i = Some (Canceled c) -> step e s = Some s' ->
  threads s' !! i = Some (Canceled c).
Proof.
  intros Hi Hstep. destruct e; simpl in Hstep.
  1-3: destruct (notify_one w (threads s)) as [ts'|] eqn:Hn; simplify_eq/=;
       by eapply notify_one_lookup.
  1-3: by simplify_eq/=.
  - simplify_eq/=. by rewrite notify_all_lookup, Hi.
  - destruct (pass c0 (shared s)). simplify_eq/=. by apply lookup_app_l_Some.
  - destruct (threads s !! i0) as [[c0|c0|c0|c0|]|] eqn:Hj; try discriminate.
    destruct (pass c0 (shared s)). simplify_eq/=.
    rewrite list_lookup_insert_ne; [done|]. intros ->. congruence.
  - destruct (threads s !! i0) as [[c0|c0|c0|c0|]|] eqn:Hj; try discriminate.
    simplify_eq/=. rewrite list_lookup_insert_ne; [done|].
    intros ->. congruence.
Qed.

Lemma run_keeps_canceled tr s s' i c :
  threads s !! i = Some (Canceled c) -> run tr s = Some s' ->
  threads s' !! i = Some (Canceled c).
Proof.
  revert s. induction tr as [|e tr IH]; intros s Hi Hrun; simpl in Hrun.
  - by simplify_eq.
  - destruct (step e s) as [s1|] eqn:Hs; [|discriminate].
    eapply IH; [|exact Hrun]. by eapply step_keeps_canceled.
Qed.

(** On a cancelled queue an unblocked consumer can always take its turn,
    and the turn ends in [throw Canceled()]. *)
Lemma resume_enabled s i c :
  _cancel (shared s) = true -> threads s !! i = Some (Notified c) ->
  step (ev_resume i) s = Some (Sys (shared s) (<[i := Canceled c]> (threads s))).
Proof. intros Hc Hi. simpl. by rewrite Hi, (pass_cancelled c _ Hc). Qed.

(** What one event does to an unblocked consumer of a cancelled queue: its
    own turn makes it throw, every other event leaves it as it is. *)
Lemma step_tracks_notified e s s' i c :
  released s -> threads s !! i = Some (Notified c) -> step e s = Some s' ->
  (e = ev_resume i /\ threads s' !! i = Some (Canceled c)) \/
  (e <> ev_resume i /\ threads s' !! i = Some (Notified c)).
Proof.
  intros [Hc Hw] Hi Hstep.
  destruct e as [m w|m w|l w| | |m| |c0|j|j]; simpl in Hstep.
  1-3: right; split; [discriminate|];
       destruct (notify_one w (threads s)) as [ts'|] eqn:Hn; simplify_eq/=;
       by eapply notify_one_lookup.
  1-3: right; split; [discriminate|]; by simplify_eq/=.
  - right; split; [discriminate|]. simplify_eq/=.
    by rewrite notify_all_lookup, Hi.
  - right; split; [discriminate|].
    destruct (pass c0 (shared s)). simplify_eq/=. by apply lookup_app_l_Some.
  - destruct (decide (j = i)) as [->|Hne].
    + left. split; [reflexivity|].
      rewrite Hi, (pass_cancelled c _ Hc) in Hstep. simplify_eq/=.
      apply list_lookup_insert_eq. by eapply lookup_lt_Some.
    + right. split; [congruence|].
      destruct (threads s !! j) as [[c0|c0|c0|c0|]|]; try discriminate.
      destruct (pass c0 (shared s)). simplify_eq/=.
      by rewrite list_lookup_insert_ne.
  - right; split; [discriminate|].
    destruct (threads s !! j) as [[c0|c0|c0|c0|]|] eqn:Hj; try discriminate.
    simplify_eq/=. rewrite list_lookup_insert_ne; [done|].
    intros ->. congruence.
Qed.

Lemma run_tracks_notified tr s s' i c :
  released s -> threads s !! i = Some (Notified c) -> run tr s = Some s' ->
  ((ev_resume i ∈ tr) /\ threads s' !! i = Some (Canceled c)) \/
  ((ev_resume i ∉ tr) /\ threads s' !! i = Some (Notified c)).
Proof.
  revert s. induction tr as [|e tr IH]; intros s Hr Hi Hrun; simpl in Hrun.
  - simplify_eq. right. split; [apply not_elem_of_nil|done].
  - destruct (step e s) as [s1|] eqn:Hs; [|discriminate].
    pose proof (step_released _ _ _ Hr Hs) as Hr1.
    destruct (step_tracks_notified _ _ _ _ _ Hr Hi Hs) as [[-> H1]|[Hne H1]].
    + left. split; [left|]. by eapply run_keeps_canceled.
    + destruct (IH s1 Hr1 H1 Hrun) as [[Hin H2]|[Hnin H2]].
      * left. split; [by right|done].
      * right. split; [|done]. rewrite not_elem_of_cons. split; congruence.
Qed.

Lemma run_cons e tr s s1 :
  step e s = Some s1 -> run (e :: tr) s = run tr s1.
Proof. intros H. cbn [run]. by rewrite H. Qed.

(** Letting a list of distinct unblocked consumers run, one turn each. *)
Lemma run_resume_list (ws : list nat) s :
  _cancel (shared s) = true -> NoDup ws ->
  (forall i, i ∈ ws -> notified_at (threads s) i = true) ->
  exists s', run (ev_resume <$> ws) s = Some s' /\ shared s' = shared s /\
    (forall i c, i ∈ ws -> threads s !! i = Some (Notified c) ->
                 threads s' !! i = Some (Canceled c)) /\
    (forall i, i ∉ ws -> threads s' !! i = threads s !! i).
Proof.
  revert s. induction ws as [|j ws IH]; intros s Hc Hnd Hall.
  - exists s. split; [done|]. split; [done|]. split; [|done].
    intros i c Hin. by apply not_elem_of_nil in Hin.
  - apply NoDup_cons in Hnd as [Hj Hnd].
    assert (Hjn : exists cj, threads s !! j = Some (Notified cj)).
    { specialize (Hall j (ltac:(left))). unfold notified_at in Hall.
      destruct (threads s !! j) as [[]|]; try discriminate. eauto. }
    destruct Hjn as [cj Hjn].
    pose proof (resume_enabled s j cj Hc Hjn) as Hstep.
    set (s1 := Sys (shared s) (<[j := Canceled cj]> (threads s))) in *.
    destruct (IH s1) as (s' & Hrun & Hsh & Hin & Hout); [done|done| |].
    { intros i Hi. unfold notified_at. simpl.
      rewrite list_lookup_insert_ne by (intros ->; contradiction).
      by apply Hall; right. }
    exists s'. split; [|split; [|split]].
    + rewrite fmap_cons, (run_cons _ _ _ _ Hstep). exact Hrun.
    + by rewrite Hsh.
    + intros i c Hi Hic. apply elem_of_cons in Hi as [->|Hi].
      * rewrite (Hout j Hj). simpl. simplify_eq.
        apply list_lookup_insert_eq. by eapply lookup_lt_Some.
      * apply Hin; [done|]. simpl.
        rewrite list_lookup_insert_ne by (intros ->; contradiction). done.
    + intros i Hi. apply not_elem_of_cons in Hi as [Hne Hi].
      rewrite (Hout i Hi). simpl. by rewrite list_lookup_insert_ne.
Qed.
End thread_facts.

(** ** The specified behaviour *)

Section behaviour.
Context {Message : Type}.
Implicit Types (q : message_queue Message) (msg dflt : Message).
Implicit Types (msgs ps : list Message) (vs : list pop_via).
Implicit Types (s : system Message) (tr : list (event Message)).

(** C1, as amended.  On a queue on which [cancel()] has been called,
    [pop_wait( Message* )] throws [Canceled] whether or not elements are
    still buffered, and leaves the queue and [*msg] as they were; what is
    buffered stays available to [try_pop].  [Canceled] is thrown exactly
    when [_cancel] is set as the wait loop is left, whatever the buffer
    holds. *)
Theorem pop_wait_on_cancelled_queue msg q :
  _cancel q = true ->
  pop_wait msg q = Throws msg q /\
  (forall front rest, _queue q = front :: rest ->
     try_pop msg q = (true, front, MQ rest true)) /\
  (forall msg0 q0,
     (exists out q', pop_wait msg0 q0 = Throws out q') <-> _cancel q0 = true).
Proof.
  intros Hc. split; [|split].
  - unfold pop_wait, wait_condition. by rewrite Hc, andb_false_r.
  - intros front rest Hq. unfold try_pop. by rewrite Hq, Hc.
  - intros msg0 q0. unfold pop_wait, wait_condition.
    destruct q0 as [[|m l] [|]]; simpl; split;
      first [done | by intros (? & ? & ?) | by eauto].
Qed.

(** C2.  FIFO order: [push(p1); ...; push(pn)] on a constructed queue,
    followed by [n] single-element pops, each through [try_pop] or
    [pop_wait], delivers [p1, ..., pn] in that order and leaves the queue
    empty again.  More generally this holds from every queue with an empty
    buffer that is not cancelled, and from a cancelled one when all the
    pops are [try_pop]. *)
Theorem fifo_order dflt ps vs :
  length vs = length ps ->
  pop_seq dflt vs (push_all ps ctor) = (Some <$> ps, ctor) /\
  (forall q,
     _queue q = [] ->
     _cancel q = false \/ Forall (fun v => v = via_try_pop) vs ->
     pop_seq dflt vs (push_all ps q) = (Some <$> ps, q)).
Proof.
  intros Hlen.
  assert (Hgen : forall q,
     _queue q = [] ->
     _cancel q = false \/ Forall (fun v => v = via_try_pop) vs ->
     pop_seq dflt vs (push_all ps q) = (Some <$> ps, q)).
  { intros q Hq Hok. rewrite push_all_unfold, Hq. simpl.
    rewrite pop_seq_drains by done. by rewrite <- Hq, queue_eta. }
  split; [|exact Hgen]. apply Hgen; [reflexivity|by left].
Qed.

(** C3.  [try_pop] reports [false] on an empty buffer and changes nothing;
    otherwise it hands out the head element and removes it.  The flag
    plays no part in it, and as an event [try_pop] is always enabled and
    leaves every consumer's state alone: it neither waits nor throws. *)
Theorem try_pop_spec msg q :
  (_queue q = [] -> try_pop msg q = (false, msg, q)) /\
  (forall front rest, _queue q = front :: rest ->
     try_pop msg q = (true, front, MQ rest (_cancel q))) /\
  try_pop msg (cancel q) =
    (let '(ok, m, q') := try_pop msg q in (ok, m, cancel q')) /\
  (forall ts, step (ev_try_pop msg) (Sys q ts)
              = Some (Sys (snd (try_pop msg q)) ts)).
Proof.
  unfold try_pop. repeat split.
  - by intros ->.
  - by intros front rest ->.
  - simpl. by destruct (_queue q).
Qed.

(** C4.  [push( std::list<Message>& )] puts the whole list behind the tail
    of the buffer in the list's own order and leaves the caller's list
    empty; popping the buffer afterwards yields the old contents followed
    by the list. *)
Theorem push_list_appends dflt (msg_list : list Message) q :
  push_list msg_list q = (MQ (_queue q ++ msg_list) (_cancel q), []) /\
  pop_seq dflt (replicate (length (_queue q ++ msg_list)) via_try_pop)
          (fst (push_list msg_list q))
    = (Some <$> (_queue q ++ msg_list), MQ [] (_cancel q)).
Proof.
  split; [reflexivity|]. simpl. apply pop_seq_drains.
  - apply length_replicate.
  - right. apply Forall_replicate. reflexivity.
Qed.

(** C5.  [pop_wait( std::list<Message>* )] returns normally exactly when
    the buffer is non-empty and the queue is not cancelled; it then moves
    the whole buffer, in order, behind the caller's list and leaves the
    buffer empty.  The same holds for the turn of a consumer that comes
    back from [_notifier.wait] and returns. *)
Theorem pop_wait_list_takes_all msgs q :
  (forall out q',
     pop_wait_list msgs q = Returns out q' <->
     _queue q <> [] /\ _cancel q = false /\
     out = msgs ++ _queue q /\ q' = MQ [] false) /\
  (forall ts i s' out,
     ts !! i = Some (Notified (call_pop_wait_list msgs)) ->
     step (ev_resume i) (Sys q ts) = Some s' ->
     threads s' !! i = Some (Finished (call_pop_wait_list out)) ->
     out = msgs ++ _queue q /\ _queue (shared s') = []).
Proof.
  split.
  - intros out q'. unfold pop_wait_list, wait_condition.
    destruct q as [[|m l] [|]]; simpl; split;
      first [discriminate | by intros (? & ? & _) | idtac].
    + by intros [= <- <-].
    + by intros (_ & _ & -> & ->).
  - intros ts i s' out Hi Hstep Hfin. simpl in Hstep. rewrite Hi in Hstep.
    apply lookup_lt_Some in Hi.
    unfold pass, pop_wait_list, wait_condition in Hstep.
    destruct q as [[|m l] [|]]; simplify_eq/=;
      rewrite list_lookup_insert_eq in Hfin by done; by simplify_eq.
Qed.

(** C6.  On a cancelled queue [push(x)] still appends [x] behind the
    tail, as an event it is enabled, and [try_pop] hands [x] out once the
    elements in front of it are gone. *)
Theorem push_after_cancel dflt (x : Message) q :
  _cancel q = true ->
  push x q = MQ (_queue q ++ [x]) true /\
  (forall ts, exists w s', step (ev_push x w) (Sys q ts) = Some s' /\
                           shared s' = push x q) /\
  pop_seq dflt (replicate (S (length (_queue q))) via_try_pop) (push x q)
    = (Some <$> (_queue q ++ [x]), MQ [] true) /\
  (_queue q = [] -> try_pop dflt (push x q) = (true, x, q)).
Proof.
  intros Hc. rewrite push_unfold, Hc. split; [reflexivity|]. split; [|split].
  - intros ts. destruct (notify_one_enabled ts) as (w & ts' & Hn).
    exists w, (Sys (push x q) ts'). simpl. rewrite Hn. simpl.
    by rewrite <- Hc.
  - apply pop_seq_drains.
    + rewrite length_replicate, length_app. simpl. lia.
    + right. apply Forall_replicate. reflexivity.
  - intros Hq. rewrite Hq. unfold try_pop. simpl.
    by rewrite <- Hq, <- Hc, queue_eta.
Qed.

(** C7.  [cancel()] is idempotent: a second call changes neither buffer
    nor flag, a call on a cancelled queue changes nothing, and as events
    two calls leave queue and consumers as one call does. *)
Theorem cancel_idempotent q :
  cancel (cancel q) = cancel q /\
  (_cancel q = true -> cancel q = q) /\
  (forall ts, run [ev_cancel; ev_cancel] (Sys q ts) = run [ev_cancel] (Sys q ts)).
Proof.
  split; [reflexivity|]. split.
  - intros Hc. unfold cancel. by rewrite <- Hc, queue_eta.
  - intros ts. simpl. by rewrite notify_all_idemp.
Qed.

(** C8.  The flag is monotone: every member function, run on a queue
    whose [_cancel] is set, leaves a queue whose [_cancel] is set; so does
    every event of the thread system. *)
Theorem cancel_flag_monotone (o : operation Message) q :
  _cancel q = true ->
  (exists q', state_after o q = Some q' /\ _cancel q' = true) /\
  (forall ts e s', step e (Sys q ts) = Some s' -> _cancel (shared s') = true).
Proof.
  intros Hc. split.
  - destruct o; simpl; try (eexists; split; [reflexivity|done]).
    + exists (snd (try_pop msg q)). split; [done|].
      unfold try_pop. by destruct (_queue q).
    + exists q. unfold pop_wait, wait_condition.
      by rewrite Hc, andb_false_r.
    + exists q. unfold pop_wait_list, wait_condition.
      by rewrite Hc, andb_false_r.
  - intros ts e s' Hstep. by apply (step_cancel_flag _ _ _ Hstep).
Qed.

(** C9.  [cancel()] wakes every waiter.  Take any state of the system, let
    [cancel()] run, and let any schedule [tr] of further events follow.
    Then nobody is blocked on the condition variable any more.  Every
    consumer that was parked in a blocking pop when [cancel()] ran has
    thrown [Canceled] if it has had its turn in [tr]; if it has not, it is
    unblocked, its turn is enabled, and the turn ends in [Canceled].  And
    giving those that have not yet run one turn each, in any order of the
    waiters, is a schedule that is enabled and after which every one of
    them has thrown [Canceled]. *)
Theorem cancel_wakes_all_waiters s tr s2 :
  run (ev_cancel :: tr) s = Some s2 ->
  waiters (threads s2) = [] /\
  (forall i, i ∈ waiters (threads s) ->
     exists c, threads s !! i = Some (Parked c) /\
       (((ev_resume i ∈ tr) /\ threads s2 !! i = Some (Canceled c)) \/
        ((ev_resume i ∉ tr) /\ threads s2 !! i = Some (Notified c) /\
         step (ev_resume i) s2
           = Some (Sys (shared s2) (<[i := Canceled c]> (threads s2)))))) /\
  (exists s3,
     run (ev_resume <$> List.filter (notified_at (threads s2))
                                    (waiters (threads s))) s2 = Some s3 /\
     shared s3 = shared s2 /\
     forall i, i ∈ waiters (threads s) ->
       exists c, threads s !! i = Some (Parked c) /\
                 threads s3 !! i = Some (Canceled c)).
Proof.
  intros Hrun.
  set (s1 := Sys (cancel (shared s)) (notify_all (threads s))).
  change (run tr s1 = Some s2) in Hrun.
  assert (Hr1 : released s1) by (split; [done|apply notify_all_waiters]).
  pose proof (run_released _ _ _ Hr1 Hrun) as [Hc2 Hw2].
  assert (Htrack : forall i c, threads s !! i = Some (Parked c) ->
    ((ev_resume i ∈ tr) /\ threads s2 !! i = Some (Canceled c)) \/
    ((ev_resume i ∉ tr) /\ threads s2 !! i = Some (Notified c))).
  { intros i c Hi. apply (run_tracks_notified tr s1); [done| |done].
    simpl. by rewrite notify_all_lookup, Hi. }
  split; [done|]. split.
  - intros i Hi. apply elem_of_waiters in Hi as [c Hi]. exists c.
    split; [done|].
    destruct (Htrack i c Hi) as [[Hin H2]|[Hnin H2]]; [by left|right].
    split; [done|]. split; [done|]. by apply resume_enabled.
  - set (ws := List.filter (notified_at (threads s2)) (waiters (threads s))).
    destruct (run_resume_list ws s2) as (s3 & Hrun3 & Hsh & Hin & Hout).
    + done.
    + apply NoDup_ListNoDup, List.NoDup_filter, NoDup_ListNoDup, NoDup_waiters.
    + intros i Hi. apply list_elem_of_In, filter_In in Hi as [_ Hi]. done.
    + exists s3. split; [done|]. split; [done|].
      intros i Hi. pose proof Hi as Hiw.
      apply elem_of_waiters in Hi as [c Hi]. exists c. split; [done|].
      destruct (Htrack i c Hi) as [[_ H2]|[_ H2]].
      * rewrite Hout; [done|]. intros Hmem.
        apply list_elem_of_In, filter_In in Hmem as [_ Hmem].
        unfold notified_at in Hmem. by rewrite H2 in Hmem.
      * apply Hin; [|done]. apply list_elem_of_In, filter_In.
        split; [by apply list_elem_of_In|]. unfold notified_at. by rewrite H2.
Qed.

(** C10.  When a blocking pop throws [Canceled], nothing has changed: the
    queue (buffer and flag) and the caller's out-parameter are what they
    were when the wait loop was left.  For a consumer taking its turn in
    the thread system this means that the shared queue and all the other
    consumers are as before. *)
Theorem canceled_leaves_queue_unchanged msg msgs q :
  (forall out q', pop_wait msg q = Throws out q' -> q' = q /\ out = msg) /\
  (forall out q',
     pop_wait_list msgs q = Throws out q' -> q' = q /\ out = msgs) /\
  (forall ts i c s',
     step (ev_resume i) (Sys q ts) = Some s' ->
     threads s' !! i = Some (Canceled c) ->
     shared s' = q /\ ts !! i = Some (Notified c) /\
     forall j, j <> i -> threads s' !! j = ts !! j).
Proof.
  split; [|split].
  - intros out q'. unfold pop_wait, wait_condition.
    destruct q as [[|m l] [|]]; simpl; intros [= <- <-]; done.
  - intros out q'. unfold pop_wait_list, wait_condition.
    destruct q as [[|m l] [|]]; simpl; intros [= <- <-]; done.
  - intros ts i c s' Hstep Hi. simpl in Hstep.
    destruct (ts !! i) as [[c0|c0|c0|c0|]|] eqn:Hti; try discriminate.
    apply lookup_lt_Some in Hti.
    destruct (pass c0 q) as [t q'] eqn:Hp. simplify_eq/=.
    rewrite list_lookup_insert_eq in Hi by done. simplify_eq.
    assert (q' = q /\ c0 = c) as [-> ->].
    { destruct c0 as [m0|l0]; simpl in Hp;
        unfold pop_wait, pop_wait_list, wait_condition in Hp;
        destruct q as [[|m l] [|]]; simpl in Hp; by simplify_eq. }
    split; [done|]. split; [done|].
    intros j Hj. by rewrite list_lookup_insert_ne.
Qed.
End behaviour.

(** ** The behaviour on concrete queues of numbers *)

(** C1 as the specification words it fails.  [push(3); cancel();
    pop_wait()] on a fresh queue: the buffer still holds [3], yet
    [pop_wait] throws [Canceled] and hands out nothing. *)
Lemma pop_wait_drain_before_cancel_fails :
  let q : message_queue nat := cancel (push 3 ctor) in
  _queue q = [3] /\ _cancel q = true /\
  pop_wait 0 q = Throws 0 q /\
  ~ (forall (msg : nat) (q0 : message_queue nat),
       _cancel q0 = true -> _queue q0 <> [] ->
       exists front rest,
         _queue q0 = front :: rest /\
         pop_wait msg q0 = Returns front (MQ rest (_cancel q0))).
Proof.
  simpl. split; [reflexivity|]. split; [reflexivity|]. split; [reflexivity|].
  intros H.
  destruct (H 0 (MQ [3] true) eq_refl ltac:(discriminate))
    as (front & rest & _ & Hpop).
  discriminate Hpop.
Qed.

Lemma pop_wait_on_cancelled_queue_witness :
  let q : message_queue nat := MQ [3] true in
  _cancel q = true /\
  pop_wait 0 q = Throws 0 q /\
  try_pop 0 q = (true, 3, MQ [] true).
Proof.
  intros q. split; [reflexivity|].
  destruct (pop_wait_on_cancelled_queue 0 q eq_refl) as (Hthrow & Htry & _).
  split; [exact Hthrow | exact (Htry 3 [] eq_refl)].
Defined.

Lemma fifo_order_witness :
  let vs := [via_try_pop; via_pop_wait; via_try_pop] in
  length vs = length [1; 2; 3] /\
  pop_seq 0 vs (push_all [1; 2; 3] ctor) = ([Some 1; Some 2; Some 3], ctor) /\
  pop_seq 0 [via_try_pop; via_try_pop] (push_all [4; 5] (MQ [] true))
    = ([Some 4; Some 5], MQ [] true).
Proof.
  intros vs. split; [reflexivity|]. split.
  - exact (proj1 (fifo_order 0 [1; 2; 3] vs eq_refl)).
  - apply (proj2 (fifo_order 0 [4; 5] [via_try_pop; via_try_pop] eq_refl)).
    + reflexivity.
    + right. repeat constructor.
Defined.

Lemma try_pop_spec_witness :
  try_pop 0 (MQ [] true) = (false, 0, MQ [] true) /\
  try_pop 0 (MQ [1; 2] false) = (true, 1, MQ [2] false).
Proof.
  split.
  - exact (proj1 (try_pop_spec 0 (MQ [] true)) eq_refl).
  - exact (proj1 (proj2 (try_pop_spec 0 (MQ [1; 2] false))) 1 [2] eq_refl).
Defined.

Lemma pop_wait_list_takes_all_witness :
  pop_wait_list [9] (MQ [1; 2] false) = Returns [9; 1; 2] (MQ [] false) /\
  ([9; 1; 2] = [9] ++ [1; 2] /\ @MQ nat [] false = MQ [] false).
Proof.
  split; [reflexivity|].
  destruct (proj1 (proj1 (pop_wait_list_takes_all [9] (MQ [1; 2] false))
                         [9; 1; 2] (MQ [] false)) eq_refl)
    as (_ & _ & Hout & Hq).
  split; [exact Hout | exact Hq].
Defined.

Lemma push_after_cancel_witness :
  let q : message_queue nat := MQ [1] true in
  _cancel q = true /\
  push 7 q = MQ [1; 7] true /\
  pop_seq 0 [via_try_pop; via_try_pop] (push 7 q)
    = ([Some 1; Some 7], MQ [] true).
Proof.
  intros q. split; [reflexivity|].
  destruct (push_after_cancel 0 7 q eq_refl) as (Hpush & _ & Hpops & _).
  split; [exact Hpush | exact Hpops].
Defined.

Lemma cancel_idempotent_witness :
  let q : message_queue nat := MQ [1] true in
  _cancel q = true /\ cancel q = q.
Proof.
  intros q. split; [reflexivity|].
  exact (proj1 (proj2 (cancel_idempotent q)) eq_refl).
Defined.

Lemma cancel_flag_monotone_witness :
  let q : message_queue nat := MQ [1] true in
  _cancel q = true /\
  exists q', state_after (op_try_pop 0) q = Some q' /\ _cancel q' = true.
Proof.
  intros q. split; [reflexivity|].
  exact (proj1 (cancel_flag_monotone (op_try_pop 0) q eq_refl)).
Defined.

(** Three consumers enter a blocking pop on a fresh queue and park.  Then
    [cancel()] runs, the second consumer takes its turn, and a producer
    pushes [5]. *)
Lemma cancel_wakes_all_waiters_witness :
  let c := @call_pop_wait nat 0 in
  let l := @call_pop_wait_list nat [] in
  let s := Sys ctor [Parked c; Parked c; Parked l] in
  let tr := [ev_resume 1; ev_push 5 None] in
  let s2 := Sys (MQ [5] true) [Notified c; Canceled c; Notified l] in
  run [ev_call c; ev_call c; ev_call l] (Sys ctor []) = Some s /\
  run (ev_cancel :: tr) s = Some s2 /\
  waiters (threads s2) = [] /\
  exists s3,
    run [ev_resume 0; ev_resume 2] s2 = Some s3 /\
    shared s3 = MQ [5] true /\
    forall i, i ∈ [0; 1; 2] ->
      exists c', threads s !! i = Some (Parked c') /\
                 threads s3 !! i = Some (Canceled c').
Proof.
  intros c l s tr s2. split; [reflexivity|]. split; [reflexivity|].
  destruct (cancel_wakes_all_waiters s tr s2 eq_refl) as (Hnone & _ & Hall).
  split; [exact Hnone | exact Hall].
Defined.

Lemma canceled_leaves_queue_unchanged_witness :
  let q : message_queue nat := MQ [3] true in
  pop_wait 0 q = Throws 0 q /\ (q = q /\ 0 = 0).
Proof.
  intros q. split; [reflexivity|].
  exact (proj1 (canceled_leaves_queue_unchanged 0 [] q) 0 q eq_refl).
Defined.

(** ** Further properties of the member functions *)

Section member_functions.
Context {Message : Type}.
Implicit Types (q : message_queue Message) (msg dflt : Message).
Implicit Types (msgs ps : list Message).

(** X1.  [pop_wait( Message* )] returns normally exactly when the queue is not
    cancelled and the buffer is not empty; it then assigns the head to
    [*msg] and removes that one element.  In that case it does what
    [try_pop] does. *)
Theorem pop_wait_returns_head msg q :
  (forall out q',
     pop_wait msg q = Returns out q' <->
     _cancel q = false /\ _queue q = out :: _queue q' /\ _cancel q' = false) /\
  (_cancel q = false -> _queue q <> [] ->
   exists out q', pop_wait msg q = Returns out q' /\
                  try_pop msg q = (true, out, q')).
Proof.
  split.
  - intros out q'. unfold pop_wait, wait_condition.
    destruct q as [[|m l] [|]], q' as [l' c']; simpl; split;
      first [discriminate | by intros (? & ? & ?) | idtac].
    + by intros [= <- <- <-].
    + by intros (_ & [= <- <-] & ->).
  - intros Hc Hq. unfold pop_wait, try_pop, wait_condition.
    destruct q as [[|m l] c]; simpl in *; [done|]. subst c. simpl. eauto.
Qed.

(** X2.  Both blocking pops go to sleep on the condition variable exactly when
    the buffer is empty and the queue is not cancelled, and then have
    changed neither the queue nor the out-parameter. *)
Theorem blocking_pop_waits msg msgs q :
  ((exists out q', pop_wait msg q = Waits out q') <->
   _queue q = [] /\ _cancel q = false) /\
  ((exists out q', pop_wait_list msgs q = Waits out q') <->
   _queue q = [] /\ _cancel q = false) /\
  (forall out q', pop_wait msg q = Waits out q' -> out = msg /\ q' = q) /\
  (forall out q', pop_wait_list msgs q = Waits out q' -> out = msgs /\ q' = q).
Proof.
  unfold pop_wait, pop_wait_list, wait_condition.
  destruct q as [[|m l] [|]]; simpl;
    (split; [|split; [|split]]);
    try (split; [by intros (? & ? & ?) | by intros [? ?]]);
    try (split; [done | by eauto]);
    intros out q' H; by simplify_eq.
Qed.

(** X3.  [pop_remaining] moves the whole buffer behind the caller's list
    whatever the flag says, also on a cancelled queue where
    [pop_wait( std::list<Message>* )] throws; it leaves a queue that
    reports empty, has size 0, gives nothing to [try_pop], and from which
    a second [pop_remaining] adds nothing. *)
Theorem pop_remaining_takes_all msgs q :
  let '(out, q') := pop_remaining msgs q in
  out = msgs ++ _queue q /\ _cancel q' = _cancel q /\
  empty q' = true /\ size q' = 0 /\
  (forall msg, try_pop msg q' = (false, msg, q')) /\
  pop_remaining out q' = (out, q') /\
  pop_wait_list msgs (cancel q) = Throws msgs (cancel q) /\
  fst (pop_remaining msgs (cancel q)) = out.
Proof.
  unfold pop_remaining, pop_wait_list, wait_condition, empty, size, try_pop.
  simpl. rewrite andb_false_r, app_nil_r. repeat split.
Qed.

(** X4.  [empty] and [size] follow the buffer: [empty()] holds exactly when
    [size()] is 0; [push] and [push_move] add one; a list push adds the
    length of the list; [try_pop] succeeds exactly when [empty()] is
    false and then takes one off; [cancel] leaves the size alone. *)
Theorem size_follows_operations msg msgs q :
  (empty q = true <-> size q = 0) /\
  size (push msg q) = S (size q) /\
  size (push_move msg q) = S (size q) /\
  size (fst (push_list msgs q)) = size q + length msgs /\
  (let '(ok, _, q') := try_pop msg q in
   ok = negb (empty q) /\ size q = (if ok then 1 else 0) + size q') /\
  size (cancel q) = size q.
Proof.
  unfold empty, size, push, push_move, push_list, try_pop, cancel.
  destruct q as [l c]. simpl. rewrite !length_app. simpl.
  split; [by destruct l|]. split; [lia|]. split; [lia|]. split; [done|].
  split; [|done]. by destruct l.
Qed.

(** X5.  Pushing elements one at a time, with [push] or with [push_move],
    leaves the queue that pushing them as one list leaves. *)
Theorem push_one_by_one_is_push_list ps q :
  push_all ps q = fst (push_list ps q) /\
  foldl (fun acc p => push_move p acc) q ps = fst (push_list ps q).
Proof.
  assert (Hm : forall l q0,
    foldl (fun acc p => push_move p acc) q0 l = push_all l q0).
  { induction l as [|p l IH]; intros q0; [done|]. simpl. apply IH. }
  rewrite Hm, push_all_unfold. done.
Qed.

(** X6.  On a queue that is not cancelled, [pop_wait( Message* )] called once
    per buffered element delivers the buffer in order and empties it, and
    one [pop_wait( std::list<Message>* )] with an empty list delivers the
    same elements in the same order and leaves the same queue. *)
Theorem pop_wait_list_is_repeated_pop_wait dflt q :
  _cancel q = false -> _queue q <> [] ->
  pop_seq dflt (replicate (size q) via_pop_wait) q
    = (Some <$> _queue q, MQ [] false) /\
  pop_wait_list [] q = Returns (_queue q) (MQ [] false).
Proof.
  intros Hc Hq. split.
  - rewrite <- (queue_eta q) at 2. rewrite Hc. apply pop_seq_drains.
    + apply length_replicate.
    + by left.
  - unfold pop_wait_list, wait_condition. rewrite Hc.
    destruct (_queue q); [done|]. reflexivity.
Qed.
End member_functions.

(** ** Further properties of the thread system *)

Section schedules.
Context {Message : Type}.
Implicit Types (q : message_queue Message) (c : call Message).
Implicit Types (t : thread Message) (ts : list (thread Message)).
Implicit Types (s : system Message) (e : event Message).
Implicit Types (tr : list (event Message)) (i j : nat).

Lemma pass_conserves c q t q' :
  pass c q = (t, q') -> _queue q = taken c t ++ _queue q'.
Proof.
  destruct c as [msg|msgs]; simpl;
    unfold pop_wait, pop_wait_list, wait_condition;
    destruct q as [[|m l] [|]]; simpl; intros [= <- <-]; simpl;
    rewrite ?drop_app_length, ?app_nil_r; reflexivity.
Qed.

Lemma pass_not_crashed c q : fst (pass c q) <> Crashed.
Proof.
  destruct c as [msg|msgs]; simpl;
    unfold pop_wait, pop_wait_list, wait_condition;
    destruct q as [[|m l] [|]]; simpl; discriminate.
Qed.

Lemma pass_canceled_flag c c' q q' :
  pass c q = (Canceled c', q') -> _cancel q' = true.
Proof.
  destruct c as [msg|msgs]; simpl;
    unfold pop_wait, pop_wait_list, wait_condition;
    destruct q as [[|m l] [|]]; simpl; intros [= <- <-]; reflexivity.
Qed.

Lemma run_cancel_flag tr s s' :
  run tr s = Some s' -> _cancel (shared s) = true -> _cancel (shared s') = true.
Proof.
  revert s. induction tr as [|e tr IH]; intros s Hrun Hc; simpl in Hrun.
  - by simplify_eq.
  - destruct (step e s) as [s1|] eqn:Hs; [|discriminate].
    eapply IH; [exact Hrun|]. by eapply step_cancel_flag.
Qed.

Lemma step_conserves e s s' :
  step e s = Some s' ->
  _queue (shared s) ++ put_in e = handed_out e s ++ _queue (shared s').
Proof.
  destruct s as [q ts]. intros Hstep.
  destruct e as [m w|m w|l w| | |m| |c|i|i]; simpl in *;
    rewrite ?app_nil_r.
  1-3: by destruct (notify_one w ts); simplify_eq/=.
  1-2: by simplify_eq.
  - simplify_eq/=. unfold try_pop. by destruct q as [[|m0 l] b].
  - by simplify_eq/=.
  - destruct (pass c q) as [t q'] eqn:Hp. simplify_eq/=.
    by apply pass_conserves.
  - destruct (ts !! i) as [[c|c|c|c|]|]; try discriminate.
    destruct (pass c q) as [t q'] eqn:Hp. simplify_eq/=.
    by apply pass_conserves.
  - destruct (ts !! i) as [[c|c|c|c|]|]; by simplify_eq/=.
Qed.

(** X7.  Nothing is lost, nothing is duplicated, nothing overtakes.  Along any
    schedule of pushes, pops, cancels and wakeups, what the buffer held
    at the start followed by everything inserted, in the order of the
    insertions, equals everything handed to the consumers, in the order
    of the hand-overs, followed by what the buffer holds at the end. *)
Theorem fifo_conservation tr s s' :
  run tr s = Some s' ->
  _queue (shared s) ++ all_put_in tr
    = all_handed_out tr s ++ _queue (shared s').
Proof.
  revert s. induction tr as [|e tr IH]; intros s Hrun; simpl in Hrun.
  - simplify_eq. unfold all_put_in. simpl. by rewrite app_nil_r.
  - destruct (step e s) as [s1|] eqn:Hs; [|discriminate].
    unfold all_put_in in *. cbn [fmap list_fmap concat all_handed_out].
    rewrite Hs, app_assoc, (step_conserves _ _ _ Hs), <- !app_assoc.
    f_equal. by apply IH.
Qed.

(** X8.  No schedule leads a consumer into undefined behaviour: the guards of
    the blocking pops keep [front()] away from an empty list. *)
Theorem no_undefined_behaviour tr s s' :
  run tr s = Some s' ->
  (forall i, threads s !! i <> Some Crashed) ->
  forall i, threads s' !! i <> Some Crashed.
Proof.
  revert s. induction tr as [|e tr IH]; intros s Hrun Hok; simpl in Hrun.
  - by simplify_eq.
  - destruct (step e s) as [s1|] eqn:Hs; [|discriminate].
    apply (IH s1 Hrun). clear IH Hrun. intros k Hk.
    assert (Hn : forall w ts', notify_one w (threads s) = Some ts' ->
                               ts' !! k <> Some Crashed).
    { intros [j|] ts' Hn; simpl in Hn.
      - destruct (threads s !! j) as [[c| | | |]|]; try discriminate.
        simplify_eq. intros Hj.
        apply list_lookup_insert_Some in Hj as [(_ & ? & _)|[_ Hj]];
          [discriminate|]. by apply Hok in Hj.
      - destruct (existsb is_parked (threads s)); simplify_eq. apply Hok. }
    destruct e as [m w|m w|l w| | |m| |c|j|j]; simpl in Hs.
    1-3: destruct (notify_one w (threads s)) as [ts'|] eqn:Hw;
         simplify_eq/=; by eapply Hn.
    1-3: simplify_eq/=; by apply Hok in Hk.
    + simplify_eq/=. rewrite notify_all_lookup in Hk.
      destruct (threads s !! k) as [t|] eqn:Ht; simplify_eq/=.
      destruct t; simplify_eq/=. by apply Hok in Ht.
    + pose proof (pass_not_crashed c (shared s)) as Hnc.
      destruct (pass c (shared s)) as [t q']. simplify_eq/=.
      apply lookup_app_Some in Hk as [Hk|[_ Hk]]; [by apply Hok in Hk|].
      apply list_lookup_singleton_Some in Hk as [_ Ht]. by apply Hnc.
    + destruct (threads s !! j) as [[c|c|c|c|]|]; try discriminate.
      pose proof (pass_not_crashed c (shared s)) as Hnc.
      destruct (pass c (shared s)) as [t q']. simplify_eq/=.
      apply list_lookup_insert_Some in Hk as [(_ & Ht & _)|[_ Hk]];
        [by apply Hnc|by apply Hok in Hk].
    + destruct (threads s !! j) as [[c|c|c|c|]|]; simplify_eq/=.
      apply list_lookup_insert_Some in Hk as [(_ & ? & _)|[_ Hk]];
        [discriminate|by apply Hok in Hk].
Qed.

(** X9.  [Canceled] is thrown only on a queue on which [cancel()] has run:
    along a schedule that ends with the flag still clear, no consumer has
    thrown. *)
Theorem canceled_only_after_cancel tr s s' :
  run tr s = Some s' ->
  _cancel (shared s') = false ->
  (forall i c, threads s !! i <> Some (Canceled c)) ->
  forall i c, threads s' !! i <> Some (Canceled c).
Proof.
  revert s. induction tr as [|e tr IH]; intros s Hrun Hc Hok; simpl in Hrun.
  - by simplify_eq.
  - destruct (step e s) as [s1|] eqn:Hs; [|discriminate].
    assert (Hc1 : _cancel (shared s1) = false).
    { destruct (_cancel (shared s1)) eqn:H1; [|done].
      rewrite (run_cancel_flag _ _ _ Hrun H1) in Hc. done. }
    apply (IH s1 Hrun Hc). clear IH Hrun Hc. intros k ck Hk.
    assert (Hn : forall w ts', notify_one w (threads s) = Some ts' ->
                               ts' !! k <> Some (Canceled ck)).
    { intros [j|] ts' Hn; simpl in Hn.
      - destruct (threads s !! j) as [[c| | | |]|]; try discriminate.
        simplify_eq. intros Hj.
        apply list_lookup_insert_Some in Hj as [(_ & ? & _)|[_ Hj]];
          [discriminate|]. by apply Hok in Hj.
      - destruct (existsb is_parked (threads s)); simplify_eq. apply Hok. }
    destruct e as [m w|m w|l w| | |m| |c|j|j]; simpl in Hs.
    1-3: destruct (notify_one w (threads s)) as [ts'|] eqn:Hw;
         simplify_eq/=; by eapply Hn.
    1-3: simplify_eq/=; by apply Hok in Hk.
    + simplify_eq/=.
    + destruct (pass c (shared s)) as [t q'] eqn:Hp. simplify_eq/=.
      apply lookup_app_Some in Hk as [Hk|[_ Hk]]; [by apply Hok in Hk|].
      apply list_lookup_singleton_Some in Hk as [_ Ht]. subst t.
      apply pass_canceled_flag in Hp. simpl in Hc1. congruence.
    + destruct (threads s !! j) as [[c|c|c|c|]|]; try discriminate.
      destruct (pass c (shared s)) as [t q'] eqn:Hp. simplify_eq/=.
      apply list_lookup_insert_Some in Hk as [(_ & Ht & _)|[_ Hk]];
        [|by apply Hok in Hk].
      subst t. apply pass_canceled_flag in Hp. simpl in Hc1. congruence.
    + destruct (threads s !! j) as [[c|c|c|c|]|]; simplify_eq/=.
      apply list_lookup_insert_Some in Hk as [(_ & ? & _)|[_ Hk]];
        [discriminate|by apply Hok in Hk].
Qed.

Lemma pass_waits c q :
  _queue q = [] -> _cancel q = false -> pass c q = (Parked c, q).
Proof.
  intros Hq Hc. destruct c as [msg|msgs]; simpl;
    unfold pop_wait, pop_wait_list, wait_condition;
    rewrite Hq, Hc; reflexivity.
Qed.

Lemma system_eta s : Sys (shared s) (threads s) = s.
Proof. by destruct s. Qed.

(** X10.  A spurious wakeup is harmless: a consumer that wakes without a
    notification while the buffer is empty and the queue is not cancelled
    finds the loop condition true and goes back to sleep; the system is
    exactly as before. *)
Theorem spurious_wakeup_harmless s i c :
  threads s !! i = Some (Parked c) ->
  _queue (shared s) = [] -> _cancel (shared s) = false ->
  run [ev_spurious i; ev_resume i] s = Some s.
Proof.
  intros Hi Hq Hc. pose proof (lookup_lt_Some _ _ _ Hi) as Hlt.
  cbn [run]. simpl. rewrite Hi. simpl.
  rewrite list_lookup_insert_eq by done.
  rewrite (pass_waits c _ Hq Hc), list_insert_insert_eq.
  by rewrite (list_insert_id _ _ _ Hi), system_eta.
Qed.


(** X12.  A stolen wakeup: when a [try_pop] takes the pushed element before the
    woken consumer gets the mutex, the consumer finds the buffer empty,
    does not touch it, and waits again; the system is as it was before
    the push. *)
Theorem stolen_wakeup_waits_again s i c (m d : Message) :
  threads s !! i = Some (Parked c) ->
  _queue (shared s) = [] -> _cancel (shared s) = false ->
  handed_out (ev_try_pop d) (Sys (push m (shared s)) (threads s)) = [m] /\
  run [ev_push m (Some i); ev_try_pop d; ev_resume i] s = Some s.
Proof.
  intros Hi Hq Hc. pose proof (lookup_lt_Some _ _ _ Hi) as Hlt.
  destruct s as [[l b] ts]. simpl in *. subst l b. split; [reflexivity|].
  rewrite Hi. simpl. rewrite list_lookup_insert_eq by done.
  destruct c as [msg|msgs]; simpl;
    by rewrite list_insert_insert_eq, (list_insert_id _ _ _ Hi).
Qed.



Lemma step_sets_flag e s s' :
  step e s = Some s' ->
  _cancel (shared s) = false -> _cancel (shared s') = true -> e = ev_cancel.
Proof.
  destruct s as [q ts]. intros Hstep Hc Hc'.
  destruct e as [m w|m w|l w| | |m| |c|i|i]; simpl in *; [..|done| | |].
  1-3: destruct (notify_one w ts); simplify_eq/=; congruence.
  1-2: simplify_eq/=; congruence.
  - simplify_eq/=. unfold try_pop in Hc'.
    destruct q as [[|m0 l] b]; simpl in *; congruence.
  - destruct (pass c q) as [t q'] eqn:Hp. simplify_eq/=.
    apply pass_cancel_flag in Hp. congruence.
  - destruct (ts !! i) as [[c|c|c|c|]|]; try discriminate.
    destruct (pass c q) as [t q'] eqn:Hp. simplify_eq/=.
    apply pass_cancel_flag in Hp. congruence.
  - destruct (ts !! i) as [[c|c|c|c|]|]; simplify_eq/=. congruence.
Qed.

(** X14.  A cancelled queue has no sleepers.  If in the starting state no
    consumer is parked while the flag is set (as on a fresh queue), then
    the same is true after every schedule: whenever [_cancel] is set,
    nobody is blocked on the condition variable. *)
Theorem cancelled_queue_has_no_waiters tr s s' :
  run tr s = Some s' ->
  (_cancel (shared s) = true -> waiters (threads s) = []) ->
  _cancel (shared s') = true -> waiters (threads s') = [].
Proof.
  revert s. induction tr as [|e tr IH]; intros s Hrun Hinv; simpl in Hrun.
  - by simplify_eq.
  - destruct (step e s) as [s1|] eqn:Hs; [|discriminate].
    apply (IH s1 Hrun). intros Hc1.
    destruct (_cancel (shared s)) eqn:Hc.
    + destruct (step_released e s s1) as [_ Hw];
        [split; [done|by apply Hinv]|done|done].
    + rewrite (step_sets_flag _ _ _ Hs Hc Hc1) in Hs. simpl in Hs.
      simplify_eq/=. apply notify_all_waiters.
Qed.
End schedules.

(** ** Further behaviour on concrete queues of numbers *)

Lemma cancelled_queue_has_no_waiters_witness :
  let s0 : system nat := Sys ctor [] in
  let c := @call_pop_wait nat 0 in
  let tr := [ev_call c; ev_call c; ev_push 1 (Some 1); ev_cancel;
             ev_call c] in
  let s1 := Sys (MQ [1] true) [Notified c; Notified c; Canceled c] in
  run tr s0 = Some s1 /\ _cancel (shared s1) = true /\
  waiters (threads s1) = [].
Proof.
  intros s0 c tr s1. split; [reflexivity|]. split; [reflexivity|].
  exact (cancelled_queue_has_no_waiters tr s0 s1 eq_refl
           ltac:(discriminate) eq_refl).
Defined.

Lemma pop_wait_returns_head_witness :
  let q : message_queue nat := MQ [4; 5] false in
  (_cancel q = false /\ _queue q <> []) /\
  exists out q', pop_wait 0 q = Returns out q' /\
                 try_pop 0 q = (true, out, q').
Proof.
  intros q. split; [split; [reflexivity | discriminate]|].
  exact (proj2 (pop_wait_returns_head 0 q) eq_refl ltac:(discriminate)).
Defined.

Lemma blocking_pop_waits_witness :
  pop_wait 0 (@ctor nat) = Waits 0 ctor /\ (0 = 0 /\ @ctor nat = ctor).
Proof.
  split; [reflexivity|].
  exact (proj1 (proj2 (proj2 (blocking_pop_waits 0 [] ctor))) 0 ctor eq_refl).
Defined.

Lemma pop_wait_list_is_repeated_pop_wait_witness :
  let q : message_queue nat := MQ [4; 5; 6] false in
  (_cancel q = false /\ _queue q <> []) /\
  pop_seq 0 [via_pop_wait; via_pop_wait; via_pop_wait] q
    = ([Some 4; Some 5; Some 6], MQ [] false) /\
  pop_wait_list [] q = Returns [4; 5; 6] (MQ [] false).
Proof.
  intros q. split; [split; [reflexivity | discriminate]|].
  exact (pop_wait_list_is_repeated_pop_wait 0 q eq_refl ltac:(discriminate)).
Defined.

(** Two consumers park on a fresh queue; a list push wakes the first, a
    [try_pop] takes [1], the first consumer takes [2], a second push wakes
    the list consumer, which takes [3] and [4]. *)
Lemma fifo_conservation_witness :
  let s0 : system nat := Sys ctor [] in
  let tr := [ev_call (call_pop_wait 0); ev_call (call_pop_wait_list [9]);
             ev_push_list [1; 2; 3] (Some 0); ev_try_pop 0; ev_resume 0;
             ev_push 4 (Some 1); ev_resume 1] in
  let s1 := Sys ctor [Finished (call_pop_wait 2);
                      Finished (call_pop_wait_list [9; 3; 4])] in
  run tr s0 = Some s1 /\
  all_put_in tr = [1; 2; 3; 4] /\
  all_handed_out tr s0 = [1; 2; 3; 4] /\
  _queue (shared s0) ++ all_put_in tr
    = all_handed_out tr s0 ++ _queue (shared s1).
Proof.
  intros s0 tr s1. split; [reflexivity|]. split; [reflexivity|].
  split; [reflexivity|].
  exact (fifo_conservation tr s0 s1 eq_refl).
Defined.

Lemma no_undefined_behaviour_witness :
  let s0 : system nat := Sys ctor [] in
  let tr := [ev_call (call_pop_wait 0); ev_push 1 (Some 0); ev_try_pop 0;
             ev_resume 0; ev_cancel; ev_resume 0] in
  let s1 := Sys (MQ [] true) [Canceled (call_pop_wait 0)] in
  run tr s0 = Some s1 /\
  forall i, threads s1 !! i <> Some Crashed.
Proof.
  intros s0 tr s1. split; [reflexivity|].
  apply (no_undefined_behaviour tr s0 s1 eq_refl).
  intros i. simpl. by rewrite lookup_nil.
Defined.

Lemma canceled_only_after_cancel_witness :
  let s0 : system nat := Sys ctor [] in
  let tr := [ev_call (call_pop_wait 0); ev_spurious 0; ev_resume 0;
             ev_push 1 (Some 0); ev_resume 0] in
  let s1 := Sys ctor [Finished (call_pop_wait 1)] in
  run tr s0 = Some s1 /\ _cancel (shared s1) = false /\
  forall i c, threads s1 !! i <> Some (Canceled c).
Proof.
  intros s0 tr s1. split; [reflexivity|]. split; [reflexivity|].
  apply (canceled_only_after_cancel tr s0 s1 eq_refl eq_refl).
  intros i c. simpl. by rewrite lookup_nil.
Defined.

Lemma spurious_wakeup_harmless_witness :
  let s : system nat := Sys ctor [Parked (call_pop_wait 0)] in
  run [ev_spurious 0; ev_resume 0] s = Some s.
Proof.
  intros s.
  exact (spurious_wakeup_harmless s 0 (call_pop_wait 0)
           eq_refl eq_refl eq_refl).
Defined.


Lemma stolen_wakeup_waits_again_witness :
  let s : system nat := Sys ctor [Parked (call_pop_wait 0)] in
  run [ev_push 7 (Some 0); ev_try_pop 0; ev_resume 0] s = Some s.
Proof.
  intros s.
  exact (proj2 (stolen_wakeup_waits_again s 0 (call_pop_wait 0) 7 0
                  eq_refl eq_refl eq_refl)).
Defined.


End MessageQueue.
